(** * Verification of [fairpy/indivisible/allocations.py]

    Shallow embedding of the fractional-allocation part of the module
    (validator [check_input], valuation [get_value_of_agent_in_alloc],
    the container [FractionalAllocation] and the formatter
    [stringify_bundle]).

    Modelling choices:
    - numbers (Python floats and ints) are exact rationals [Q];
    - a Python [dict] is an association list in insertion order, since the
      code only ever reads [.keys()] and [.values()] positionally;
    - an item is a [string]; Python compares strings by code point, which is
      [String.compare] on ASCII strings;
    - what the code prints is returned as a list of diagnostics, and a
      raised exception as the left side of a sum. *)

From Stdlib Require Import List Arith NArith ZArith Lia QArith String Ascii Sorting.Permutation
  Sorting.Sorted Bool.
Import List ListNotations.
Open Scope Q_scope.

(** ** Data model *)

Definition Item := string.

(** A Python dict [{item: number}], in its iteration order. *)
Definition fmap := list (Item * Q).

Definition keys (d : fmap) : list Item := map fst d.
Definition values (d : fmap) : list Q := map snd d.

(** Exceptions raised by the Python code. *)
Inductive exn := IndexError | TypeError.

(** The lines printed by the module, one constructor per message. *)
Inductive diag :=
| AgentCountMismatch (* "The amount of agents differs from ..." *)
| OutOfRangeShare    (* "The values of the fractional allocation of items are not between 0 and 1" *)
| OverAllocatedItem  (* "There is an item whose sum of parts is greater than 1" *)
| UnclaimedItem      (* "There is an item that has not been assigned to any agent" *)
| InvalidInput.      (* "Invalid input." *)

(** Python's [v > 1 or v < 0]. *)
Definition out_of_range (v : Q) : bool :=
  negb (Qle_bool v 1) || negb (Qle_bool 0 v).

(** ** [check_input] *)

(** [l[j] = x] on a Python list; [j] is always in range where it is used. *)
Fixpoint list_update (l : list Q) (j : nat) (x : Q) : list Q :=
  match l, j with
  | [], _ => []
  | _ :: t, O => x :: t
  | h :: t, S j' => h :: list_update t j' x
  end.

(** The inner loop
<<
        for v, j in zip(map_item_to_fraction[i].values(), range(len(sum_value_list))):
            sum_value_list[j] += v
            if v > 1 or v < 0:
                ...; return False
>>
    [None] is the early [return False]. *)
Fixpoint add_row (vs : list Q) (js : list nat) (sums : list Q) : option (list Q) :=
  match vs, js with
  | v :: vs', j :: js' =>
      let sums' := list_update sums j (nth j sums 0 + v) in
      if out_of_range v then None else add_row vs' js' sums'
  | _, _ => Some sums
  end.

(** The outer loop [for i in range(len(map_item_to_fraction))]. *)
Fixpoint accumulate (rows : list fmap) (sums : list Q) : option (list Q) :=
  match rows with
  | [] => Some sums
  | r :: rows' =>
      match add_row (values r) (seq 0 (length sums)) sums with
      | None => None
      | Some sums' => accumulate rows' sums'
      end
  end.

(** The final loop [for k in range(len(sum_value_list))]; [Some d] is the
    message printed before [return False]. *)
Fixpoint final_scan (sums : list Q) : option diag :=
  match sums with
  | [] => None
  | s :: sums' =>
      if negb (Qle_bool s 1) then Some OverAllocatedItem
      else if Qeq_bool s 0 then Some UnclaimedItem
      else final_scan sums'
  end.

(** [check_input]: printed lines, and the returned boolean or the raised
    exception ([map_item_to_fraction[0]] on an empty list). *)
Definition check_input (m : list fmap) : list diag * (exn + bool) :=
  match m with
  | [] => ([], inl IndexError)
  | m0 :: _ =>
      let sum_value_list := repeat 0 (length m0) in
      match accumulate m sum_value_list with
      | None => ([OutOfRangeShare], inr false)
      | Some sums =>
          match final_scan sums with
          | Some d => ([d], inr false)
          | None => ([], inr true)
          end
      end
  end.

(** Docstring examples of [check_input]. *)
Definition ex (x y z : Q) : fmap := [("x"%string, x); ("y"%string, y); ("z"%string, z)].

Example check_input_doc1 :
  check_input [ex (1#2) (1#2) (1#2); ex (1#2) (1#2) (1#2)] = ([], inr true).
Proof. reflexivity. Qed.
Example check_input_doc2 :
  check_input [ex (4#10) 0 (1#2); ex (6#10) 1 (1#2)] = ([], inr true).
Proof. reflexivity. Qed.
Example check_input_doc3 :
  check_input [ex (1#2) (1#2) (19#10); ex (1#2) (1#2) (1#2)] = ([OutOfRangeShare], inr false).
Proof. reflexivity. Qed.
Example check_input_doc4 :
  check_input [ex (1#2) (1#2) 1; ex (1#2) (1#2) (-1#10)] = ([OutOfRangeShare], inr false).
Proof. reflexivity. Qed.
Example check_input_doc5 :
  check_input [ex (7#10) (1#2) (1#2); ex (9#10) (1#2) (1#2)] = ([OverAllocatedItem], inr false).
Proof. reflexivity. Qed.
Example check_input_doc6 :
  check_input [ex 0 (1#2) (1#2); ex 0 (1#2) (1#2)] = ([UnclaimedItem], inr false).
Proof. reflexivity. Qed.

(** ** [get_value_of_agent_in_alloc] *)

(** The loop [for v1, v2 in zip(...): value += v1*v2]. *)
Fixpoint value_loop (ps : list (Q * Q)) (value : Q) : Q :=
  match ps with
  | [] => value
  | (v1, v2) :: ps' => value_loop ps' (value + v1 * v2)
  end.

Definition get_value_of_agent_in_alloc (value_of_the_whole_items amount_of_the_items : fmap) : Q :=
  value_loop (combine (values value_of_the_whole_items) (values amount_of_the_items)) 0.

Example get_value_doc1 :
  Qeq_bool (get_value_of_agent_in_alloc (ex 1 2 3) (ex (1#2) (1#2) (1#2))) 3 = true.
Proof. reflexivity. Qed.
Example get_value_doc2 :
  Qeq_bool (get_value_of_agent_in_alloc (ex 1 2 3 ++ [("p"%string, 9)])
                                        (ex (1#10) (1#2) (8#10) ++ [("p"%string, 7#10)]))
           (98#10) = true.
Proof. reflexivity. Qed.

(** ** [FractionalAllocation] *)

(** The part of [AdditiveAgent] the module uses. *)
Record AdditiveAgent := mkAgent {
  agent_name : string;
  map_good_to_value : fmap
}.

(** An instance: the two fields, [None] standing for Python's [None]. *)
Record FractionalAllocationObj := mkFA {
  fa_agents : option (list AdditiveAgent);
  fa_map_item_to_fraction : option (list fmap)
}.

Definition sentinel : FractionalAllocationObj := mkFA None None.

(** [FractionalAllocation.__init__]. *)
Definition FractionalAllocation (agents : list AdditiveAgent) (map_item_to_fraction : list fmap)
  : list diag * (exn + FractionalAllocationObj) :=
  if negb (Nat.eqb (length agents) (length map_item_to_fraction)) then
    ([AgentCountMismatch], inr sentinel)
  else
    match check_input map_item_to_fraction with
    | (d, inl e) => (d, inl e)
    | (d, inr true) => (d, inr (mkFA (Some agents) (Some map_item_to_fraction)))
    | (d, inr false) => (d ++ [InvalidInput], inr sentinel)
    end.

(** The loop of [value_of_fractional_allocation], from agent index [i];
    [self.agents[i_agent]] is the agent [agent] of the enumeration. *)
Fixpoint value_loop_agents (ags : list AdditiveAgent) (i : nat)
    (maps : option (list fmap)) (result : Q) : exn + Q :=
  match ags with
  | [] => inr result
  | agent :: ags' =>
      match maps with
      | None => inl TypeError                       (* None[i_agent] *)
      | Some ms =>
          match nth_error ms i with
          | None => inl IndexError
          | Some f =>
              let agent_value := get_value_of_agent_in_alloc (map_good_to_value agent) f in
              value_loop_agents ags' (S i) maps (result + agent_value)
          end
      end
  end.

(** [FractionalAllocation.value_of_fractional_allocation]. *)
Definition value_of_fractional_allocation (self : FractionalAllocationObj) : exn + Q :=
  match fa_agents self with
  | None => inl TypeError                           (* enumerate(None) *)
  | Some ags => value_loop_agents ags 0 (fa_map_item_to_fraction self) 0
  end.

(** ** [stringify_bundle] *)

(** Python's [sorted] on strings (any correct sort; items are compared by
    code point). *)
Fixpoint insert_sorted (x : Item) (l : list Item) : list Item :=
  match l with
  | [] => [x]
  | y :: l' => if String.leb x y then x :: l else y :: insert_sorted x l'
  end.

Fixpoint py_sorted (l : list Item) : list Item :=
  match l with
  | [] => []
  | x :: l' => insert_sorted x (py_sorted l')
  end.

(** [stringify_bundle]: ["{" + ",".join(sorted(bundle)) + "}"]; a bundle
    is given by its iteration order. *)
Definition stringify_bundle (bundle : list Item) : string :=
  "{" ++ String.concat "," (py_sorted bundle) ++ "}".

Example stringify_bundle_doc1 : stringify_bundle ["x"; "y"]%string = "{x,y}"%string.
Proof. reflexivity. Qed.
Example stringify_bundle_doc2 : stringify_bundle ["y"; "x"]%string = "{x,y}"%string.
Proof. reflexivity. Qed.

(** [get_items_of_agent_in_alloc]: the keys whose value is [> 0]. *)
Fixpoint get_items_of_agent_in_alloc (d : fmap) : list Item :=
  match d with
  | [] => []
  | (key, val) :: d' =>
      if negb (Qle_bool val 0) then key :: get_items_of_agent_in_alloc d'
      else get_items_of_agent_in_alloc d'
  end.

(** ** [FractionalAllocation.__repr__] *)

Section Repr.

(** Python's [str] of a number, used by [format]; not modelled. *)
Variable show_number : Q -> string.

Definition newline : string := String (ascii_of_nat 10) EmptyString.

Fixpoint repr_loop (ags : list AdditiveAgent) (i : nat)
    (maps : option (list fmap)) (result : string) : exn + string :=
  match ags with
  | [] => inr result
  | agent :: ags' =>
      match maps with
      | None => inl TypeError
      | Some ms =>
          match nth_error ms i with
          | None => inl IndexError
          | Some f =>
              let agent_bundle := stringify_bundle (get_items_of_agent_in_alloc f) in
              let agent_value := get_value_of_agent_in_alloc (map_good_to_value agent) f in
              repr_loop ags' (S i) maps
                (result ++ agent_name agent ++ "'s bundle: " ++ agent_bundle
                        ++ ",  value: " ++ show_number agent_value ++ newline)
          end
      end
  end.

(** [FractionalAllocation.__repr__]. *)
Definition FractionalAllocation_repr (self : FractionalAllocationObj) : exn + string :=
  match fa_agents self, fa_map_item_to_fraction self with
  | None, None => inr ""%string
  | None, Some _ => inl TypeError                   (* enumerate(None) *)
  | Some ags, maps => repr_loop ags 0 maps ""
  end.

End Repr.

(** ** The integral [Allocation] container *)

Section AllocationModel.

(** [Agent] and [Bundle] come from [fairpy.indivisible.agents]; the
    container only stores them. *)
Variables Agent Bundle : Type.

(** An instance; [None] in [bundles] is Python's [None] entry. *)
Record Allocation := mkAllocation {
  alloc_agents : list Agent;
  alloc_bundles : list (option Bundle)
}.

(** [Allocation.__init__(agents, bundles=None)]. *)
Definition Allocation_init (agents : list Agent) (bundles : option (list (option Bundle)))
  : Allocation :=
  match bundles with
  | None => mkAllocation agents (repeat None (length agents))
  | Some bs => mkAllocation agents bs
  end.

(** Python's list indexing [l[i]]: [-len(l) <= i < len(l)], negative
    indices counting from the end; [None] is the [IndexError]. *)
Definition py_index (len : nat) (i : Z) : option nat :=
  if (0 <=? i)%Z && (i <? Z.of_nat len)%Z then Some (Z.to_nat i)
  else if (- Z.of_nat len <=? i)%Z && (i <? 0)%Z then Some (Z.to_nat (i + Z.of_nat len))
  else None.

(** [l[n] = x] for an index [n] already checked to be in range. *)
Fixpoint list_set {A} (l : list A) (n : nat) (x : A) : list A :=
  match l, n with
  | [], _ => []
  | _ :: t, O => x :: t
  | h :: t, S n' => h :: list_set t n' x
  end.

(** [Allocation.get_bundle]. *)
Definition get_bundle (self : Allocation) (agent_index : Z) : exn + option Bundle :=
  match py_index (length (alloc_bundles self)) agent_index with
  | None => inl IndexError
  | Some n => inr (nth n (alloc_bundles self) None)
  end.

(** [Allocation.set_bundle]: the instance after [self.bundles[i] = bundle]. *)
Definition set_bundle (self : Allocation) (agent_index : Z) (bundle : option Bundle)
  : exn + Allocation :=
  match py_index (length (alloc_bundles self)) agent_index with
  | None => inl IndexError
  | Some n => inr (mkAllocation (alloc_agents self) (list_set (alloc_bundles self) n bundle))
  end.

(** [Allocation.get_bundles] and [Allocation.set_bundles]. *)
Definition get_bundles (self : Allocation) : list (option Bundle) := alloc_bundles self.
Definition set_bundles (self : Allocation) (bundles : list (option Bundle)) : Allocation :=
  mkAllocation (alloc_agents self) bundles.

End AllocationModel.

Arguments mkAllocation {Agent Bundle}.
Arguments alloc_agents {Agent Bundle}.
Arguments alloc_bundles {Agent Bundle}.
Arguments Allocation_init {Agent Bundle}.
Arguments get_bundle {Agent Bundle}.
Arguments set_bundle {Agent Bundle}.
Arguments get_bundles {Agent Bundle}.
Arguments set_bundles {Agent Bundle}.

Example FractionalAllocation_doc_mismatch :
  let agent5 := mkAgent "agent5" (ex 1 2 3) in
  let agent6 := mkAgent "agent6" (ex 3 2 1) in
  FractionalAllocation [agent5; agent6] [ex (4#10) 0 (1#2)] = ([AgentCountMismatch], inr sentinel).
Proof. reflexivity. Qed.

Example FractionalAllocation_doc_range :
  let agent9 := mkAgent "agent9" (ex 1 2 3) in
  let agent10 := mkAgent "agent10" (ex 3 2 1) in
  FractionalAllocation [agent9; agent10] [ex 0 0 (1#2); ex (6#10) 1 5]
  = ([OutOfRangeShare; InvalidInput], inr sentinel).
Proof. reflexivity. Qed.

Example value_of_fractional_allocation_doc :
  let agent3 := mkAgent "agent3" (ex 1 2 3) in
  let agent4 := mkAgent "agent4" (ex 3 2 1) in
  match FractionalAllocation [agent3; agent4] [ex (4#10) 0 (1#2); ex (6#10) 1 (1#2)] with
  | (_, inr st) =>
      match value_of_fractional_allocation st with
      | inr v => Qeq_bool v (62#10)
      | inl _ => false
      end
  | _ => false
  end = true.
Proof. reflexivity. Qed.

(** ** Specification-level notions *)

(** The summed share of item position [k]: the running sum the validator
    builds, [0 + m[0][k] + m[1][k] + ...]. *)
Definition item_sum (m : list fmap) (k : nat) : Q :=
  fold_left (fun acc r => acc + nth k (values r) 0) m 0.

(** All maps declare the items of the first map, in the same order. *)
Definition same_items (m : list fmap) : Prop :=
  forall r, In r m -> keys r = keys (hd [] m).

(** Every individual share lies in [[0,1]]. *)
Definition shares_in_range (m : list fmap) : Prop :=
  forall r, In r m -> forall v, In v (values r) -> 0 <= v <= 1.

(** The inner loop, with the index bookkeeping removed. *)
Fixpoint add_row_zip (vs sums : list Q) : option (list Q) :=
  match vs, sums with
  | v :: vs', s :: sums' =>
      if out_of_range v then None else option_map (cons (s + v)) (add_row_zip vs' sums')
  | _, _ => Some sums
  end.

(** The positional sum [sum(v1[k] * v2[k] for k < min(len v1, len v2))]. *)
Definition positional_sum (a b : list Q) : Q :=
  fold_left (fun acc k => acc + nth k a 0 * nth k b 0)
            (seq 0 (Nat.min (length a) (length b))) 0.

Definition sumQ (l : list Q) : Q := fold_right Qplus 0 l.

(** Each agent's own fractional value, agent by agent. *)
Definition agent_values (agents : list AdditiveAgent) (maps : list fmap) : list Q :=
  map (fun af => get_value_of_agent_in_alloc (map_good_to_value (fst af)) (snd af))
      (combine agents maps).

(** What item position [p] adds to one agent's value. *)
Definition item_term (p : nat) (a : AdditiveAgent) (f : fmap) : Q :=
  let va := values (map_good_to_value a) in
  let vf := values f in
  if (p <? Nat.min (length va) (length vf))%nat then nth p va 0 * nth p vf 0 else 0.

(** What item position [p] adds to the social value. *)
Definition item_contribution (agents : list AdditiveAgent) (maps : list fmap) (p : nat) : Q :=
  sumQ (map (fun af => item_term p (fst af) (snd af)) (combine agents maps)).

(** Every agent's share of item position [p] multiplied by [c]. *)
Fixpoint scale_item (p : nat) (c : Q) (f : fmap) : fmap :=
  match f, p with
  | [], _ => []
  | (key, v) :: f', O => (key, c * v) :: f'
  | kv :: f', S p' => kv :: scale_item p' c f'
  end.

(** Python's [<] on strings. *)
Definition str_lt (x y : Item) : Prop := String.compare x y = Lt.

(** One rendered line of [FractionalAllocation.__repr__]. *)
Definition repr_line (show_number : Q -> string) (af : AdditiveAgent * fmap) : string :=
  (agent_name (fst af) ++ "'s bundle: "
   ++ stringify_bundle (get_items_of_agent_in_alloc (snd af))
   ++ ",  value: "
   ++ show_number (get_value_of_agent_in_alloc (map_good_to_value (fst af)) (snd af))
   ++ newline)%string.

(** ** Lemmas on the validator *)

Lemma list_update_middle (p ss : list Q) (s x : Q) :
  list_update (p ++ s :: ss) (length p) x = p ++ x :: ss.
Proof. induction p as [|h p IH]; simpl; [reflexivity | now rewrite IH]. Qed.

Lemma add_row_app (vs p ss : list Q) :
  add_row vs (seq (length p) (length ss)) (p ++ ss) = option_map (app p) (add_row_zip vs ss).
Proof.
  revert p ss; induction vs as [|v vs IH]; intros p ss.
  - destruct ss; reflexivity.
  - destruct ss as [|s ss]; [reflexivity|].
    cbn [length seq add_row add_row_zip].
    rewrite nth_middle, list_update_middle.
    destruct (out_of_range v); [reflexivity|].
    replace (p ++ (s + v) :: ss) with ((p ++ [s + v]) ++ ss)
      by now rewrite <- app_assoc.
    replace (S (length p)) with (length (p ++ [s + v]))
      by (rewrite length_app; simpl; lia).
    rewrite IH. destruct (add_row_zip vs ss); simpl; [now rewrite <- app_assoc | reflexivity].
Qed.

Lemma add_row_zip_eq (vs ss : list Q) :
  add_row vs (seq 0 (length ss)) ss = add_row_zip vs ss.
Proof.
  pose proof (add_row_app vs [] ss) as H. simpl in H. rewrite H.
  now destruct (add_row_zip vs ss).
Qed.

Lemma add_row_zip_length (vs ss ss' : list Q) :
  add_row_zip vs ss = Some ss' -> length ss' = length ss.
Proof.
  revert ss ss'; induction vs as [|v vs IH]; intros [|s ss] ss' H; simpl in H;
    try (injection H as <-; reflexivity).
  destruct (out_of_range v); [discriminate|].
  destruct (add_row_zip vs ss) eqn:E; simpl in H; [|discriminate].
  injection H as <-. simpl. f_equal. eauto.
Qed.

Lemma add_row_zip_firstn (vs ss : list Q) :
  add_row_zip (firstn (length ss) vs) ss = add_row_zip vs ss.
Proof.
  revert ss; induction vs as [|v vs IH]; intros [|s ss]; simpl; try reflexivity.
  now rewrite IH.
Qed.

Lemma add_row_zip_None (vs ss : list Q) :
  add_row_zip vs ss = None <-> existsb out_of_range (firstn (length ss) vs) = true.
Proof.
  revert ss; induction vs as [|v vs IH]; intros [|s ss]; simpl;
    try (split; intro H; discriminate H).
  destruct (out_of_range v); simpl; [tauto|].
  rewrite <- IH. destruct (add_row_zip vs ss); simpl; split; congruence.
Qed.

Lemma add_row_zip_nth (vs ss : list Q) :
  (length ss <= length vs)%nat ->
  existsb out_of_range (firstn (length ss) vs) = false ->
  exists ss', add_row_zip vs ss = Some ss' /\ length ss' = length ss /\
    forall k, (k < length ss)%nat -> nth k ss' 0 = nth k ss 0 + nth k vs 0.
Proof.
  revert ss; induction vs as [|v vs IH]; intros [|s ss] Hl Hr; simpl in *.
  - exists []; repeat split; intros; lia.
  - lia.
  - exists []; repeat split; intros; lia.
  - destruct (out_of_range v); simpl in Hr; [discriminate|].
    destruct (IH ss) as (ss' & E & L & N); [lia | assumption |].
    rewrite E. exists ((s + v) :: ss'); simpl; repeat split; [now rewrite L|].
    intros [|k] Hk; [reflexivity | apply N; lia].
Qed.

Lemma out_of_range_false (v : Q) : out_of_range v = false <-> 0 <= v <= 1.
Proof.
  unfold out_of_range. rewrite orb_false_iff, !negb_false_iff, !Qle_bool_iff. tauto.
Qed.

Lemma in_range_no_out_of_range (l : list Q) (n : nat) :
  (forall v, In v l -> 0 <= v <= 1) -> existsb out_of_range (firstn n l) = false.
Proof.
  revert n; induction l as [|v l IH]; intros [|n] H; simpl; try reflexivity.
  rewrite (proj2 (out_of_range_false v)) by (apply H; left; reflexivity).
  apply IH. intros w Hw. apply H. right. exact Hw.
Qed.

Lemma accumulate_cons (r : fmap) (rows : list fmap) (ss : list Q) :
  accumulate (r :: rows) ss =
  match add_row_zip (values r) ss with
  | None => None
  | Some ss' => accumulate rows ss'
  end.
Proof. simpl. now rewrite add_row_zip_eq. Qed.

Lemma accumulate_None (rows : list fmap) (ss : list Q) :
  accumulate rows ss = None <->
  exists r, In r rows /\ existsb out_of_range (firstn (length ss) (values r)) = true.
Proof.
  revert ss; induction rows as [|r rows IH]; intros ss.
  - simpl. split; [discriminate | intros (r & [] & _)].
  - rewrite accumulate_cons. destruct (add_row_zip (values r) ss) as [ss'|] eqn:E.
    + apply add_row_zip_length in E as L. rewrite IH, L. split.
      * intros (r' & Hin & Hr). exists r'. split; [right; exact Hin | exact Hr].
      * intros (r' & [<-|Hin] & Hr).
        -- apply add_row_zip_None in Hr. congruence.
        -- exists r'. split; assumption.
    + apply add_row_zip_None in E. split; [intros _ | reflexivity].
      exists r. split; [left; reflexivity | exact E].
Qed.

Lemma values_firstn (n : nat) (r : fmap) : values (firstn n r) = firstn n (values r).
Proof.
  revert n; induction r as [|x r IH]; intros [|n]; simpl; try reflexivity.
  unfold values in *. simpl. now rewrite IH.
Qed.

Lemma accumulate_firstn (rows : list fmap) (ss : list Q) :
  accumulate (map (firstn (length ss)) rows) ss = accumulate rows ss.
Proof.
  revert ss; induction rows as [|r rows IH]; intros ss; [reflexivity|].
  simpl map. rewrite !accumulate_cons, values_firstn, add_row_zip_firstn.
  destruct (add_row_zip (values r) ss) as [ss'|] eqn:E; [|reflexivity].
  apply add_row_zip_length in E. rewrite <- E. apply IH.
Qed.

Lemma accumulate_sums (rows : list fmap) (ss : list Q) :
  (forall r, In r rows -> (length ss <= length r)%nat) ->
  (forall r, In r rows -> forall v, In v (values r) -> 0 <= v <= 1) ->
  exists ss', accumulate rows ss = Some ss' /\ length ss' = length ss /\
    forall k, (k < length ss)%nat ->
      nth k ss' 0 = fold_left (fun acc r => acc + nth k (values r) 0) rows (nth k ss 0).
Proof.
  revert ss; induction rows as [|r rows IH]; intros ss Hl Hr.
  - exists ss. simpl. repeat split; reflexivity.
  - rewrite accumulate_cons.
    destruct (add_row_zip_nth (values r) ss) as (ss1 & E & L & N).
    + unfold values. rewrite length_map. apply Hl. left. reflexivity.
    + apply in_range_no_out_of_range. apply Hr. left. reflexivity.
    + rewrite E.
      destruct (IH ss1) as (ss2 & E2 & L2 & N2).
      * intros r' Hin. rewrite L. apply Hl. right. exact Hin.
      * intros r' Hin. apply Hr. right. exact Hin.
      * exists ss2. rewrite E2. repeat split; [congruence|].
        intros k Hk. simpl. rewrite <- N by exact Hk. apply N2. lia.
Qed.

(** Under the claims' shape hypotheses the running sums are the item sums. *)
Lemma check_input_running_sums (m0 : fmap) (rest : list fmap) :
  same_items (m0 :: rest) -> shares_in_range (m0 :: rest) ->
  exists s, accumulate (m0 :: rest) (repeat 0 (length m0)) = Some s /\
    length s = length m0 /\
    forall k, (k < length m0)%nat -> nth k s 0 = item_sum (m0 :: rest) k.
Proof.
  intros Hs Hr.
  destruct (accumulate_sums (m0 :: rest) (repeat 0 (length m0))) as (s & E & L & N).
  - intros r Hin. apply Hs in Hin. simpl in Hin. rewrite repeat_length.
    apply (f_equal (@length _)) in Hin. unfold keys in Hin.
    rewrite !length_map in Hin. lia.
  - exact Hr.
  - rewrite repeat_length in L, N. exists s. repeat split; [exact E | exact L |].
    intros k Hk. rewrite N by exact Hk. rewrite nth_repeat. reflexivity.
Qed.

Lemma final_scan_None (s : list Q) :
  (forall k, (k < length s)%nat -> 0 < nth k s 0 /\ nth k s 0 <= 1) ->
  final_scan s = None.
Proof.
  induction s as [|x s IH]; intros H; [reflexivity|].
  simpl. destruct (H 0%nat) as [H0 H1]; [simpl; lia|]. simpl in H0, H1.
  rewrite (proj2 (Qle_bool_iff x 1) H1). simpl.
  destruct (Qeq_bool x 0) eqn:E.
  - apply Qeq_bool_eq in E. rewrite E in H0. destruct (Qlt_irrefl 0 H0).
  - apply IH. intros k Hk. apply (H (S k)). simpl. lia.
Qed.

Lemma final_scan_first (s : list Q) (k : nat) (d : diag) :
  (k < length s)%nat ->
  (forall p, (p < k)%nat -> 0 < nth p s 0 /\ nth p s 0 <= 1) ->
  (if negb (Qle_bool (nth k s 0) 1) then Some OverAllocatedItem
   else if Qeq_bool (nth k s 0) 0 then Some UnclaimedItem else None) = Some d ->
  final_scan s = Some d.
Proof.
  revert k; induction s as [|x s IH]; intros k Hk Hp Hd; [simpl in Hk; lia|].
  destruct k as [|k]; simpl in Hd |- *.
  { destruct (negb (Qle_bool x 1)); [exact Hd|].
    destruct (Qeq_bool x 0); [exact Hd | discriminate]. }
  destruct (Hp 0%nat) as [H0 H1]; [lia|]. simpl in H0, H1.
  rewrite (proj2 (Qle_bool_iff x 1) H1). simpl.
  destruct (Qeq_bool x 0) eqn:E.
  - apply Qeq_bool_eq in E. rewrite E in H0. destruct (Qlt_irrefl 0 H0).
  - apply (IH k); [simpl in Hk; lia | | exact Hd].
    intros p Hp'. apply (Hp (S p)). lia.
Qed.

Lemma accumulate_no_items (rows : list fmap) : accumulate rows [] = Some [].
Proof.
  induction rows as [|r rows IH]; [reflexivity|].
  rewrite accumulate_cons. destruct (values r); exact IH.
Qed.

Lemma same_items_length (m0 : fmap) (rest : list fmap) (r : fmap) :
  same_items (m0 :: rest) -> In r (m0 :: rest) -> length (values r) = length m0.
Proof.
  intros Hs Hin. apply Hs in Hin. simpl in Hin.
  apply (f_equal (@length _)) in Hin. unfold keys, values in *.
  now rewrite !length_map in *.
Qed.

(** Shares of concrete inputs, checked one by one. *)
Ltac concrete_in_range :=
  let r := fresh "r" in let Hr := fresh "Hr" in
  let v := fresh "v" in let Hv := fresh "Hv" in
  intros r Hr v Hv; simpl in Hr;
  repeat (destruct Hr as [<-|Hr]); try contradiction;
  simpl in Hv; repeat (destruct Hv as [<-|Hv]); try contradiction;
  split; apply Qle_bool_iff; reflexivity.

Ltac concrete_same_items :=
  let r := fresh "r" in let Hr := fresh "Hr" in
  intros r Hr; simpl in Hr;
  repeat (destruct Hr as [<-|Hr]); try contradiction; reflexivity.

(** ** Claims on the validator *)

(** C1 (amended). For maps over the same items whose shares all lie in
    [[0,1]], the validator reports the lowest item position whose summed
    share exceeds 1 or equals 0: [OverAllocatedItem] if that position is
    over-allocated, [UnclaimedItem] if it is unclaimed. *)
Theorem check_input_first_violation (m0 : fmap) (rest : list fmap) (k : nat) :
  same_items (m0 :: rest) -> shares_in_range (m0 :: rest) ->
  (k < length m0)%nat ->
  (forall p, (p < k)%nat -> 0 < item_sum (m0 :: rest) p <= 1) ->
  (1 < item_sum (m0 :: rest) k -> check_input (m0 :: rest) = ([OverAllocatedItem], inr false)) /\
  (item_sum (m0 :: rest) k == 0 -> check_input (m0 :: rest) = ([UnclaimedItem], inr false)).
Proof.
  intros Hs Hr Hk Hp.
  destruct (check_input_running_sums m0 rest Hs Hr) as (s & E & L & N).
  unfold check_input. rewrite E.
  assert (Hp' : forall p, (p < k)%nat -> 0 < nth p s 0 /\ nth p s 0 <= 1).
  { intros p Hpk. rewrite N by lia. apply Hp. exact Hpk. }
  split; intros Hsum.
  - rewrite (final_scan_first s k OverAllocatedItem); [reflexivity | lia | exact Hp' |].
    rewrite N by exact Hk.
    destruct (Qle_bool (item_sum (m0 :: rest) k) 1) eqn:B; [|reflexivity].
    apply Qle_bool_iff in B. destruct (Qlt_not_le _ _ Hsum B).
  - rewrite (final_scan_first s k UnclaimedItem); [reflexivity | lia | exact Hp' |].
    rewrite N by exact Hk.
    rewrite (proj2 (Qle_bool_iff _ 1)) by (rewrite Hsum; apply Qle_bool_iff; reflexivity).
    rewrite (proj2 (Qeq_bool_iff _ 0) Hsum). reflexivity.
Qed.

(** C1 fails as stated: position 0 is unclaimed and position 1 is
    over-allocated, and [UnclaimedItem] is reported, not [OverAllocatedItem]. *)
Lemma check_input_unclaimed_first_cex :
  let m := [[("x"%string, 0); ("y"%string, 7#10)]; [("x"%string, 0); ("y"%string, 9#10)]] in
  same_items m /\ shares_in_range m /\ 1 < item_sum m 1 /\ item_sum m 0 == 0 /\
  check_input m = ([UnclaimedItem], inr false) /\
  check_input m <> ([OverAllocatedItem], inr false).
Proof.
  simpl. split; [concrete_same_items|]. split; [concrete_in_range|].
  split; [reflexivity|]. split; [reflexivity|]. split; [reflexivity | discriminate].
Qed.

(** C2 (amended). An empty list of maps makes the validator raise
    [IndexError] (reading [map_item_to_fraction[0]]), and so does
    [FractionalAllocation([], [])]; a non-empty list whose first map is
    empty passes with no diagnostic, and [n >= 1] agents with [n] empty
    maps build a valid instance. *)
Theorem check_input_degenerate :
  check_input [] = ([], inl IndexError) /\
  FractionalAllocation [] [] = ([], inl IndexError) /\
  (forall rest, check_input ([] :: rest) = ([], inr true)) /\
  (forall a ags,
     FractionalAllocation (a :: ags) (map (fun _ => []) (a :: ags))
     = ([], inr (mkFA (Some (a :: ags)) (Some (map (fun _ => []) (a :: ags)))))).
Proof.
  split; [reflexivity|]. split; [reflexivity|]. split.
  - intros rest. unfold check_input. cbn [length repeat].
    rewrite accumulate_no_items. reflexivity.
  - intros a ags. unfold FractionalAllocation.
    rewrite length_map, Nat.eqb_refl. simpl negb. cbv iota.
    unfold check_input. cbn [map length repeat].
    rewrite accumulate_no_items.
    reflexivity.
Qed.

(** C4. On maps over the same items, one share [> 1] or [< 0] anywhere
    makes the validator print only [OutOfRangeShare] and return [False]. *)
Theorem check_input_out_of_range (m0 : fmap) (rest : list fmap) :
  same_items (m0 :: rest) ->
  (exists r v, In r (m0 :: rest) /\ In v (values r) /\ (1 < v \/ v < 0)) ->
  check_input (m0 :: rest) = ([OutOfRangeShare], inr false).
Proof.
  intros Hs (r & v & Hin & Hv & Hbad).
  unfold check_input.
  replace (accumulate (m0 :: rest) (repeat 0 (length m0))) with (@None (list Q));
    [reflexivity|].
  symmetry. apply accumulate_None. exists r. split; [exact Hin|].
  rewrite repeat_length, firstn_all2
    by (rewrite (same_items_length m0 rest r Hs Hin); lia).
  apply existsb_exists. exists v. split; [exact Hv|].
  destruct (out_of_range v) eqn:E; [reflexivity|].
  apply out_of_range_false in E. destruct E as [E0 E1]. destruct Hbad as [B|B].
  - destruct (Qlt_not_le _ _ B E1).
  - destruct (Qlt_not_le _ _ B E0).
Qed.

(** C5. Maps over the same items, every share in [[0,1]], every item sum in
    [(0,1]]: the validator returns [True] and prints nothing. *)
Theorem check_input_valid (m0 : fmap) (rest : list fmap) :
  same_items (m0 :: rest) -> shares_in_range (m0 :: rest) ->
  (forall k, (k < length m0)%nat -> 0 < item_sum (m0 :: rest) k <= 1) ->
  check_input (m0 :: rest) = ([], inr true).
Proof.
  intros Hs Hr Hk.
  destruct (check_input_running_sums m0 rest Hs Hr) as (s & E & L & N).
  unfold check_input. rewrite E, final_scan_None; [reflexivity|].
  intros k Hk'. rewrite N by lia. apply Hk. lia.
Qed.

(** C9. Only the first [len(map_item_to_fraction[0])] entries of each map
    are read: cutting the later maps to that length changes nothing, so an
    extra entry of [5] in a longer later map goes unnoticed. *)
Theorem check_input_ignores_extra_entries :
  (forall m0 rest,
     check_input (m0 :: rest) = check_input (m0 :: map (firstn (length m0)) rest)) /\
  check_input [[("x"%string, 1#2)]; [("x"%string, 1#2); ("y"%string, 5)]] = ([], inr true) /\
  check_input [[("x"%string, 1#2)]; [("x"%string, 1#2); ("y"%string, -1)]] = ([], inr true).
Proof.
  split; [|split; reflexivity].
  intros m0 rest. unfold check_input. cbv zeta.
  pose proof (accumulate_firstn (m0 :: rest) (repeat 0 (length m0))) as H.
  rewrite repeat_length in H. simpl map in H. rewrite firstn_all in H.
  unfold fmap, Item in *. rewrite H. reflexivity.
Qed.

(** ** Claims on the container *)

(** C3. A length mismatch, or maps the validator rejects, leave the instance
    with both fields [None], without raising; it then renders as [""]. *)
Theorem FractionalAllocation_invalid_is_sentinel
    (agents : list AdditiveAgent) (maps : list fmap) :
  (length agents <> length maps \/ snd (check_input maps) = inr false) ->
  exists d st, FractionalAllocation agents maps = (d, inr st) /\
    fa_agents st = None /\ fa_map_item_to_fraction st = None /\
    forall show_number, FractionalAllocation_repr show_number st = inr ""%string.
Proof.
  intros H. unfold FractionalAllocation.
  destruct (Nat.eqb_spec (length agents) (length maps)) as [Heq|Hne]; simpl negb; cbv iota.
  - destruct H as [H|H]; [contradiction|].
    destruct (check_input maps) as [d r]. simpl in H. subst r.
    exists (d ++ [InvalidInput]), sentinel. repeat split.
  - exists [AgentCountMismatch], sentinel. repeat split.
Qed.

Lemma FractionalAllocation_invalid_is_sentinel_witness :
  let agents := [mkAgent "agent5" (ex 1 2 3); mkAgent "agent6" (ex 3 2 1)] in
  let maps := [ex (4#10) 0 (1#2)] in
  length agents <> length maps /\
  exists d st, FractionalAllocation agents maps = (d, inr st) /\
    fa_agents st = None /\ fa_map_item_to_fraction st = None /\
    forall show_number, FractionalAllocation_repr show_number st = inr ""%string.
Proof.
  simpl. split; [lia|].
  apply FractionalAllocation_invalid_is_sentinel. left. simpl. lia.
Defined.

(** C10. [value_of_fractional_allocation] does not look at validity: on the
    invalid instance it raises [TypeError] ([enumerate(None)]), while
    [__repr__] returns [""]. *)
Theorem value_of_fractional_allocation_sentinel_faults :
  value_of_fractional_allocation sentinel = inl TypeError /\
  forall show_number, FractionalAllocation_repr show_number sentinel = inr ""%string.
Proof. split; reflexivity. Qed.

(** ** Claims on the valuation *)

Lemma fold_left_seq_shift (f : Q -> nat -> Q) (start len : nat) (acc : Q) :
  fold_left f (seq (S start) len) acc = fold_left (fun acc k => f acc (S k)) (seq start len) acc.
Proof.
  revert start acc; induction len as [|len IH]; intros start acc; [reflexivity|].
  simpl. apply IH.
Qed.

Lemma value_loop_positional (a b : list Q) (acc : Q) :
  value_loop (combine a b) acc =
  fold_left (fun acc k => acc + nth k a 0 * nth k b 0) (seq 0 (Nat.min (length a) (length b))) acc.
Proof.
  revert b acc; induction a as [|x a IH]; intros [|y b] acc; try reflexivity.
  simpl. rewrite fold_left_seq_shift. apply IH.
Qed.

(** C6. The agent's value is the sum of [value * share] over the entries of
    the two dicts paired by position, up to the shorter length. *)
Theorem get_value_positional (d1 d2 : fmap) :
  get_value_of_agent_in_alloc d1 d2 = positional_sum (values d1) (values d2).
Proof. apply value_loop_positional. Qed.

(** ** Witnesses of the validator claims *)

Lemma check_input_first_violation_witness :
  let m0 := [("x"%string, 7#10); ("y"%string, 0)] in
  let rest := [[("x"%string, 9#10); ("y"%string, 0)]] in
  same_items (m0 :: rest) /\ shares_in_range (m0 :: rest) /\ (0 < length m0)%nat /\
  (1 < item_sum (m0 :: rest) 0 -> check_input (m0 :: rest) = ([OverAllocatedItem], inr false)) /\
  (item_sum (m0 :: rest) 0 == 0 -> check_input (m0 :: rest) = ([UnclaimedItem], inr false)).
Proof.
  cbv zeta. split; [concrete_same_items|]. split; [concrete_in_range|]. split; [simpl; lia|].
  apply (check_input_first_violation [("x"%string, 7#10); ("y"%string, 0)]
           [[("x"%string, 9#10); ("y"%string, 0)]] 0).
  - concrete_same_items.
  - concrete_in_range.
  - simpl. lia.
  - intros p Hp. lia.
Defined.

(** C2 fails as stated: on an empty list of maps the validator, and the
    constructor with zero agents, raise [IndexError] instead of succeeding. *)
Lemma check_input_empty_list_cex :
  snd (check_input []) <> inr true /\
  snd (FractionalAllocation [] []) = inl IndexError.
Proof. split; [discriminate | reflexivity]. Qed.

Lemma check_input_out_of_range_witness :
  let m0 := ex 0 0 (1#2) in
  let rest := [ex (6#10) 1 5] in
  same_items (m0 :: rest) /\
  (exists r v, In r (m0 :: rest) /\ In v (values r) /\ (1 < v \/ v < 0)) /\
  check_input (m0 :: rest) = ([OutOfRangeShare], inr false).
Proof.
  cbv zeta.
  assert (Hs : same_items [ex 0 0 (1#2); ex (6#10) 1 5]) by concrete_same_items.
  assert (Hx : exists r v, In r [ex 0 0 (1#2); ex (6#10) 1 5] /\ In v (values r) /\
                           (1 < v \/ v < 0)).
  { exists (ex (6#10) 1 5), 5. split; [simpl; tauto|]. split; [simpl; tauto|].
    left. reflexivity. }
  split; [exact Hs|]. split; [exact Hx|].
  apply check_input_out_of_range; [exact Hs | exact Hx].
Defined.

Lemma check_input_valid_witness :
  let m0 := ex (4#10) 0 (1#2) in
  let rest := [ex (6#10) 1 (1#2)] in
  same_items (m0 :: rest) /\ shares_in_range (m0 :: rest) /\
  (forall k, (k < length m0)%nat -> 0 < item_sum (m0 :: rest) k <= 1) /\
  check_input (m0 :: rest) = ([], inr true).
Proof.
  cbv zeta.
  assert (Hs : same_items [ex (4#10) 0 (1#2); ex (6#10) 1 (1#2)]) by concrete_same_items.
  assert (Hr : shares_in_range [ex (4#10) 0 (1#2); ex (6#10) 1 (1#2)]) by concrete_in_range.
  assert (Hk : forall k, (k < length (ex (4#10) 0 (1#2)))%nat ->
                 0 < item_sum [ex (4#10) 0 (1#2); ex (6#10) 1 (1#2)] k <= 1).
  { intros k Hk. simpl in Hk.
    destruct k as [|[|[|k]]]; [| | | lia]; split; vm_compute; reflexivity || discriminate. }
  split; [exact Hs|]. split; [exact Hr|]. split; [exact Hk|].
  apply check_input_valid; assumption.
Defined.

(** ** Social value *)

Lemma fold_left_plus_sumQ {A} (g : A -> Q) (l : list A) (acc : Q) :
  fold_left (fun acc x => acc + g x) l acc == acc + sumQ (map g l).
Proof.
  revert acc; induction l as [|x l IH]; intros acc; simpl; [ring|].
  rewrite IH. ring.
Qed.

Lemma fold_left_Qplus_sumQ (l : list Q) (acc : Q) :
  fold_left Qplus l acc == acc + sumQ l.
Proof.
  revert acc; induction l as [|x l IH]; intros acc; simpl; [ring|].
  rewrite IH. ring.
Qed.

Lemma sumQ_app (l1 l2 : list Q) : sumQ (l1 ++ l2) == sumQ l1 + sumQ l2.
Proof. induction l1 as [|x l1 IH]; simpl; [ring | rewrite IH; ring]. Qed.

Lemma sumQ_map_ext {A} (f g : A -> Q) (l : list A) :
  (forall x, In x l -> f x == g x) -> sumQ (map f l) == sumQ (map g l).
Proof.
  induction l as [|x l IH]; intros H; simpl; [reflexivity|].
  rewrite (H x) by (left; reflexivity). rewrite IH; [reflexivity|].
  intros y Hy. apply H. right. exact Hy.
Qed.

Lemma sumQ_plus {A} (f g : A -> Q) (l : list A) :
  sumQ (map (fun x => f x + g x) l) == sumQ (map f l) + sumQ (map g l).
Proof. induction l as [|x l IH]; simpl; [ring | rewrite IH; ring]. Qed.

Lemma sumQ_scale {A} (c : Q) (f : A -> Q) (l : list A) :
  sumQ (map (fun x => c * f x) l) == c * sumQ (map f l).
Proof. induction l as [|x l IH]; simpl; [ring | rewrite IH; ring]. Qed.

Lemma sumQ_zero {A} (l : list A) : sumQ (map (fun _ => 0) l) == 0.
Proof. induction l as [|x l IH]; simpl; [reflexivity | rewrite IH; ring]. Qed.

Lemma sumQ_exchange {A B} (F : A -> B -> Q) (l1 : list A) (l2 : list B) :
  sumQ (map (fun x => sumQ (map (fun y => F x y) l2)) l1) ==
  sumQ (map (fun y => sumQ (map (fun x => F x y) l1)) l2).
Proof.
  induction l1 as [|x l1 IH]; simpl.
  - symmetry. apply sumQ_zero.
  - rewrite IH, sumQ_plus. reflexivity.
Qed.

Lemma value_loop_agents_app (ags : list AdditiveAgent) (pre ms : list fmap) (acc : Q) :
  length ags = length ms ->
  value_loop_agents ags (length pre) (Some (pre ++ ms)) acc =
  inr (fold_left Qplus (agent_values ags ms) acc).
Proof.
  revert pre ms acc; induction ags as [|a ags IH]; intros pre [|f ms] acc Hl;
    simpl in Hl; try discriminate; [reflexivity|].
  simpl. rewrite nth_error_app2, Nat.sub_diag by lia. simpl.
  replace (S (length pre)) with (length (pre ++ [f])) by (rewrite length_app; simpl; lia).
  replace (pre ++ f :: ms) with ((pre ++ [f]) ++ ms) by (rewrite <- app_assoc; reflexivity).
  apply IH. lia.
Qed.

Lemma value_of_fractional_allocation_sum (agents : list AdditiveAgent) (maps : list fmap) :
  length agents = length maps ->
  value_of_fractional_allocation (mkFA (Some agents) (Some maps)) =
  inr (fold_left Qplus (agent_values agents maps) 0).
Proof. intros Hl. apply (value_loop_agents_app agents [] maps 0 Hl). Qed.

(** One agent's value, split by item position, for any bound [N] on the
    number of shares. *)
Lemma get_value_by_item (a : AdditiveAgent) (f : fmap) (N : nat) :
  (length f <= N)%nat ->
  get_value_of_agent_in_alloc (map_good_to_value a) f ==
  sumQ (map (fun q => item_term q a f) (seq 0 N)).
Proof.
  intros HN. rewrite get_value_positional. unfold positional_sum.
  rewrite fold_left_plus_sumQ.
  set (M := Nat.min (length (values (map_good_to_value a))) (length (values f))).
  assert (HM : (M <= N)%nat).
  { unfold M. eapply Nat.le_trans; [apply Nat.le_min_r|].
    unfold values. rewrite length_map. exact HN. }
  replace N with (M + (N - M))%nat by lia.
  rewrite seq_app, map_app, sumQ_app.
  rewrite (sumQ_map_ext (fun q => item_term q a f) (fun _ => 0) (seq (0 + M) (N - M))).
  - rewrite sumQ_zero.
    rewrite (sumQ_map_ext (fun q => item_term q a f)
               (fun k => nth k (values (map_good_to_value a)) 0 * nth k (values f) 0)).
    + ring.
    + intros q Hq. apply in_seq in Hq. unfold item_term. fold M.
      rewrite (proj2 (Nat.ltb_lt q M)) by lia. reflexivity.
  - intros q Hq. apply in_seq in Hq. unfold item_term. fold M.
    rewrite (proj2 (Nat.ltb_ge q M)) by lia. reflexivity.
Qed.

(** The social value, split by item position. *)
Lemma social_value_by_item (agents : list AdditiveAgent) (maps : list fmap) :
  fold_left Qplus (agent_values agents maps) 0 ==
  sumQ (map (item_contribution agents maps) (seq 0 (list_max (map (@length _) maps)))).
Proof.
  set (N := list_max (map (@length _) maps)).
  assert (HN : forall af, In af (combine agents maps) -> (length (snd af) <= N)%nat).
  { intros [a f] Hin. apply in_combine_r in Hin. simpl.
    assert (HF : Forall (fun k => k <= N)%nat (map (@length _) maps))
      by (apply list_max_le; unfold N; lia).
    rewrite Forall_forall in HF. apply HF. apply in_map. exact Hin. }
  rewrite fold_left_Qplus_sumQ. unfold agent_values.
  unfold item_contribution.
  rewrite (sumQ_map_ext _ (fun af => sumQ (map (fun q => item_term q (fst af) (snd af)) (seq 0 N)))).
  - rewrite sumQ_exchange. ring.
  - intros af Hin. apply get_value_by_item. apply HN. exact Hin.
Qed.

Lemma scale_item_length (p : nat) (c : Q) (f : fmap) : length (scale_item p c f) = length f.
Proof.
  revert p; induction f as [|[key v] f IH]; intros [|p]; simpl; try reflexivity.
  now rewrite IH.
Qed.

Lemma values_scale_item_length (p : nat) (c : Q) (f : fmap) :
  length (values (scale_item p c f)) = length (values f).
Proof. unfold values. rewrite !length_map. apply scale_item_length. Qed.

Lemma scale_item_nth_other (p q : nat) (c : Q) (f : fmap) :
  q <> p -> nth q (values (scale_item p c f)) 0 = nth q (values f) 0.
Proof.
  revert p q; induction f as [|[key v] f IH]; intros [|p] [|q] Hqp; simpl;
    try reflexivity; try contradiction.
  apply IH. intros E. apply Hqp. now subst.
Qed.

Lemma scale_item_nth_same (p : nat) (c : Q) (f : fmap) :
  nth p (values (scale_item p c f)) 0 == c * nth p (values f) 0.
Proof.
  revert p; induction f as [|[key v] f IH]; intros [|p]; simpl; try reflexivity; try ring.
  apply IH.
Qed.

Lemma item_term_scale_other (p q : nat) (c : Q) (a : AdditiveAgent) (f : fmap) :
  q <> p -> item_term q a (scale_item p c f) = item_term q a f.
Proof.
  intros Hqp. unfold item_term. rewrite values_scale_item_length.
  rewrite scale_item_nth_other by exact Hqp. reflexivity.
Qed.

Lemma item_term_scale_same (p : nat) (c : Q) (a : AdditiveAgent) (f : fmap) :
  item_term p a (scale_item p c f) == c * item_term p a f.
Proof.
  unfold item_term. rewrite values_scale_item_length.
  destruct (p <? _)%nat; [rewrite scale_item_nth_same; ring | ring].
Qed.

Lemma combine_map_r {A B} (g : B -> B) (l : list A) (l' : list B) :
  combine l (map g l') = map (fun x => (fst x, g (snd x))) (combine l l').
Proof.
  revert l'; induction l as [|x l IH]; intros [|y l']; simpl; try reflexivity.
  now rewrite IH.
Qed.

Lemma item_contribution_scale_same agents maps (p : nat) (c : Q) :
  item_contribution agents (map (scale_item p c) maps) p == c * item_contribution agents maps p.
Proof.
  unfold item_contribution. rewrite combine_map_r, map_map, <- sumQ_scale.
  apply sumQ_map_ext. intros [a f] _. apply item_term_scale_same.
Qed.

Lemma item_contribution_scale_other agents maps (p q : nat) (c : Q) :
  q <> p ->
  item_contribution agents (map (scale_item p c) maps) q = item_contribution agents maps q.
Proof.
  intros Hqp. unfold item_contribution. rewrite combine_map_r, map_map.
  f_equal. apply map_ext. intros [a f]. apply item_term_scale_other. exact Hqp.
Qed.

Lemma FractionalAllocation_valid_length agents maps d st :
  FractionalAllocation agents maps = (d, inr st) -> fa_agents st <> None ->
  length agents = length maps.
Proof.
  unfold FractionalAllocation.
  destruct (Nat.eqb_spec (length agents) (length maps)) as [E|E]; [intros; exact E|].
  simpl. intros H. injection H as _ <-. simpl. contradiction.
Qed.

(** C7. On a validly built instance the social value is the sum of the
    agents' values; it splits into per-item contributions, and multiplying
    every agent's share of item position [p] by [c] multiplies the
    contribution of [p] by [c] and leaves every other contribution as it
    was. [N] bounds the number of shares of every agent. *)
Theorem value_of_fractional_allocation_linear
    (agents : list AdditiveAgent) (maps : list fmap) (d : list diag) (p : nat) (c : Q) :
  FractionalAllocation agents maps = (d, inr (mkFA (Some agents) (Some maps))) ->
  let N := list_max (map (@length _) maps) in
  let maps' := map (scale_item p c) maps in
  value_of_fractional_allocation (mkFA (Some agents) (Some maps)) =
    inr (fold_left Qplus (agent_values agents maps) 0) /\
  (exists v v',
     value_of_fractional_allocation (mkFA (Some agents) (Some maps)) = inr v /\
     value_of_fractional_allocation (mkFA (Some agents) (Some maps')) = inr v' /\
     v == sumQ (map (item_contribution agents maps) (seq 0 N)) /\
     v' == sumQ (map (item_contribution agents maps') (seq 0 N))) /\
  item_contribution agents maps' p == c * item_contribution agents maps p /\
  (forall q, q <> p -> item_contribution agents maps' q = item_contribution agents maps q).
Proof.
  intros H N maps'.
  assert (Hl : length agents = length maps)
    by (eapply FractionalAllocation_valid_length; [exact H | discriminate]).
  assert (Hl' : length agents = length maps') by (unfold maps'; rewrite length_map; exact Hl).
  assert (HN : N = list_max (map (@length _) maps')).
  { unfold N, maps'. rewrite map_map. f_equal. apply map_ext. intros f.
    symmetry. apply scale_item_length. }
  split; [apply value_of_fractional_allocation_sum; exact Hl|].
  split.
  - exists (fold_left Qplus (agent_values agents maps) 0),
           (fold_left Qplus (agent_values agents maps') 0).
    split; [apply value_of_fractional_allocation_sum; exact Hl|].
    split; [apply value_of_fractional_allocation_sum; exact Hl'|].
    split; [apply social_value_by_item|].
    rewrite HN. apply social_value_by_item.
  - split; [apply item_contribution_scale_same|].
    intros q Hq. apply item_contribution_scale_other. exact Hq.
Qed.

Lemma value_of_fractional_allocation_linear_witness :
  let agents := [mkAgent "agent3" (ex 1 2 3); mkAgent "agent4" (ex 3 2 1)] in
  let maps := [ex (4#10) 0 (1#2); ex (6#10) 1 (1#2)] in
  FractionalAllocation agents maps = ([], inr (mkFA (Some agents) (Some maps))) /\
  let N := list_max (map (@length _) maps) in
  let maps' := map (scale_item 2 (1#2)) maps in
  value_of_fractional_allocation (mkFA (Some agents) (Some maps)) =
    inr (fold_left Qplus (agent_values agents maps) 0) /\
  (exists v v',
     value_of_fractional_allocation (mkFA (Some agents) (Some maps)) = inr v /\
     value_of_fractional_allocation (mkFA (Some agents) (Some maps')) = inr v' /\
     v == sumQ (map (item_contribution agents maps) (seq 0 N)) /\
     v' == sumQ (map (item_contribution agents maps') (seq 0 N))) /\
  item_contribution agents maps' 2 == (1#2) * item_contribution agents maps 2 /\
  (forall q, q <> 2%nat -> item_contribution agents maps' q = item_contribution agents maps q).
Proof.
  cbv zeta. split; [reflexivity|].
  apply (value_of_fractional_allocation_linear _ _ []). reflexivity.
Defined.

(** ** The bundle formatter *)

Lemma ascii_compare_lt_trans (a b c : ascii) :
  Ascii.compare a b = Lt -> Ascii.compare b c = Lt -> Ascii.compare a c = Lt.
Proof.
  unfold Ascii.compare. rewrite !N.compare_lt_iff. apply N.lt_trans.
Qed.

Lemma str_lt_trans (x y z : Item) : str_lt x y -> str_lt y z -> str_lt x z.
Proof.
  unfold str_lt. revert y z; induction x as [|a x IH]; intros [|b y] [|c z];
    simpl; try discriminate; try reflexivity.
  destruct (Ascii.compare a b) eqn:Eab; try discriminate; intros Hxy.
  - apply Ascii.compare_eq_iff in Eab. subst b.
    destruct (Ascii.compare a c); try discriminate; [apply (IH y) | reflexivity]; assumption.
  - destruct (Ascii.compare b c) eqn:Ebc; try discriminate; intros _.
    + apply Ascii.compare_eq_iff in Ebc. subst c. rewrite Eab. reflexivity.
    + rewrite (ascii_compare_lt_trans a b c Eab Ebc). reflexivity.
Qed.

Lemma leb_false_flip (x y : Item) : String.leb x y = false -> String.leb y x = true.
Proof.
  unfold String.leb. rewrite (String.compare_antisym y x).
  destruct (String.compare x y); simpl; congruence.
Qed.

Lemma insert_sorted_perm (x : Item) (l : list Item) : Permutation (x :: l) (insert_sorted x l).
Proof.
  induction l as [|y l IH]; simpl; [reflexivity|].
  destruct (String.leb x y); [reflexivity|].
  rewrite perm_swap. constructor. exact IH.
Qed.

Lemma py_sorted_perm (l : list Item) : Permutation l (py_sorted l).
Proof.
  induction l as [|x l IH]; simpl; [constructor|].
  rewrite <- insert_sorted_perm. constructor. exact IH.
Qed.

Lemma insert_sorted_sorted (x : Item) (l : list Item) :
  Sorted (fun a b => String.leb a b = true) l ->
  Sorted (fun a b => String.leb a b = true) (insert_sorted x l).
Proof.
  induction 1 as [|y l Hl IH Hy]; simpl; [repeat constructor|].
  destruct (String.leb x y) eqn:Exy.
  - constructor; [constructor; assumption | constructor; exact Exy].
  - constructor; [exact IH|]. apply leb_false_flip in Exy.
    destruct l as [|z l]; simpl; [constructor; exact Exy|].
    inversion Hy; subst. destruct (String.leb x z); constructor; assumption.
Qed.

Lemma py_sorted_sorted (l : list Item) :
  Sorted (fun a b => String.leb a b = true) (py_sorted l).
Proof.
  induction l as [|x l IH]; simpl; [constructor|]. apply insert_sorted_sorted. exact IH.
Qed.

Lemma sorted_leb_nodup_lt (l : list Item) :
  NoDup l -> Sorted (fun a b => String.leb a b = true) l -> Sorted str_lt l.
Proof.
  intros Hnd Hs. induction Hs as [|x l Hl IH Hx]; [constructor|].
  inversion Hnd as [|? ? Hnin Hnd']; subst.
  constructor; [apply IH; exact Hnd'|].
  destruct l as [|y l]; constructor. inversion Hx; subst.
  unfold str_lt. unfold String.leb in *.
  destruct (String.compare x y) eqn:E; try discriminate; [|reflexivity].
  apply String.compare_eq_iff in E. subst. destruct Hnin. left. reflexivity.
Qed.

Lemma strongly_sorted_perm_unique (l1 l2 : list Item) :
  StronglySorted str_lt l1 -> StronglySorted str_lt l2 -> Permutation l1 l2 -> l1 = l2.
Proof.
  revert l2; induction l1 as [|x l1 IH]; intros l2 H1 H2 Hp.
  - symmetry. apply Permutation_nil. exact Hp.
  - destruct l2 as [|y l2]; [apply Permutation_sym, Permutation_nil in Hp; discriminate|].
    apply StronglySorted_inv in H1 as [H1 F1]. apply StronglySorted_inv in H2 as [H2 F2].
    destruct (string_dec x y) as [<-|Hxy].
    + f_equal. apply IH; [exact H1 | exact H2 |]. apply Permutation_cons_inv in Hp. exact Hp.
    + exfalso.
      assert (Hx : In x l2).
      { assert (In x (y :: l2)) as [E|E] by (apply (Permutation_in x Hp); left; reflexivity);
          [congruence | exact E]. }
      assert (Hy : In y l1).
      { assert (In y (x :: l1)) as [E|E]
          by (apply (Permutation_in y (Permutation_sym Hp)); left; reflexivity);
          [congruence | exact E]. }
      rewrite Forall_forall in F1, F2.
      pose proof (F1 y Hy) as Lxy. pose proof (F2 x Hx) as Lyx.
      unfold str_lt in *. rewrite String.compare_antisym, Lyx in Lxy. discriminate.
Qed.

Lemma py_sorted_strongly_sorted (l : list Item) :
  NoDup l -> StronglySorted str_lt (py_sorted l).
Proof.
  intros Hnd. apply Sorted_StronglySorted; [exact str_lt_trans|].
  apply sorted_leb_nodup_lt; [|apply py_sorted_sorted].
  exact (Permutation_NoDup (py_sorted_perm l) Hnd).
Qed.

(** C8. A bundle given in any iteration order (a set: no duplicates) is
    rendered as its items in strictly ascending order, comma-separated,
    between braces; two orders of the same set give the same string, and
    the empty bundle gives ["{}"]. *)
Theorem stringify_bundle_canonical (b1 b2 : list Item) :
  NoDup b1 -> Permutation b1 b2 ->
  stringify_bundle b1 = stringify_bundle b2 /\
  (exists s, stringify_bundle b1 = ("{" ++ String.concat "," s ++ "}")%string /\
             StronglySorted str_lt s /\ NoDup s /\ Permutation b1 s) /\
  stringify_bundle [] = "{}"%string.
Proof.
  intros Hnd Hp.
  assert (Hnd2 : NoDup b2) by exact (Permutation_NoDup Hp Hnd).
  split; [|split; [|reflexivity]].
  - unfold stringify_bundle. f_equal. f_equal. f_equal.
    apply strongly_sorted_perm_unique;
      [apply py_sorted_strongly_sorted; assumption
      | apply py_sorted_strongly_sorted; assumption |].
    rewrite <- !py_sorted_perm. exact Hp.
  - exists (py_sorted b1). split; [reflexivity|].
    split; [apply py_sorted_strongly_sorted; exact Hnd|].
    split; [exact (Permutation_NoDup (py_sorted_perm b1) Hnd) | apply py_sorted_perm].
Qed.

Lemma stringify_bundle_canonical_witness :
  NoDup ["y"; "x"; "z"]%string /\ Permutation ["y"; "x"; "z"]%string ["z"; "x"; "y"]%string /\
  stringify_bundle ["y"; "x"; "z"]%string = stringify_bundle ["z"; "x"; "y"]%string /\
  (exists s, stringify_bundle ["y"; "x"; "z"]%string = ("{" ++ String.concat "," s ++ "}")%string /\
             StronglySorted str_lt s /\ NoDup s /\ Permutation ["y"; "x"; "z"]%string s) /\
  stringify_bundle [] = "{}"%string.
Proof.
  assert (Hnd : NoDup ["y"; "x"; "z"]%string).
  { repeat constructor; simpl; intros H; repeat destruct H as [H|H]; discriminate || contradiction. }
  assert (Hp : Permutation ["y"; "x"; "z"]%string ["z"; "x"; "y"]%string).
  { apply NoDup_Permutation_bis; [exact Hnd | simpl; lia |].
    intros x Hx. simpl in Hx |- *. tauto. }
  split; [exact Hnd|]. split; [exact Hp|].
  apply stringify_bundle_canonical; assumption.
Defined.

(** * Further properties of the module *)

(** ** Construction and validation *)

Lemma check_input_cons_shape (m0 : fmap) (rest : list fmap) :
  (check_input (m0 :: rest) = ([OutOfRangeShare], inr false)) \/
  (check_input (m0 :: rest) = ([OverAllocatedItem], inr false)) \/
  (check_input (m0 :: rest) = ([UnclaimedItem], inr false)) \/
  (check_input (m0 :: rest) = ([], inr true)).
Proof.
  unfold check_input. cbv zeta.
  destruct (accumulate (m0 :: rest) (repeat 0 (length m0))) as [s|]; [|tauto].
  destruct (final_scan s) as [[] |] eqn:E; try tauto.
  all: exfalso; clear -E; induction s as [|x s IH]; simpl in E; [discriminate|].
  all: destruct (negb (Qle_bool x 1)); [discriminate|];
       destruct (Qeq_bool x 0); [discriminate | exact (IH E)].
Qed.

(** On a non-empty list of maps [check_input] never raises, prints at most
    one line, and prints nothing exactly when it returns [True]. *)
Theorem check_input_one_message (m0 : fmap) (rest : list fmap) :
  (exists b, snd (check_input (m0 :: rest)) = inr b) /\
  (length (fst (check_input (m0 :: rest))) <= 1)%nat /\
  (fst (check_input (m0 :: rest)) = [] <-> snd (check_input (m0 :: rest)) = inr true).
Proof.
  destruct (check_input_cons_shape m0 rest) as [E|[E|[E|E]]]; rewrite E; simpl;
    (split; [eexists; reflexivity | split; [lia | split; intro H; discriminate H || reflexivity]]).
Qed.

(** The constructor raises only on zero agents with zero maps, and then
    with [IndexError] and no message. *)
Theorem FractionalAllocation_raises_only_on_empty
    (agents : list AdditiveAgent) (maps : list fmap) (d : list diag) (e : exn) :
  FractionalAllocation agents maps = (d, inl e) ->
  agents = [] /\ maps = [] /\ d = [] /\ e = IndexError.
Proof.
  unfold FractionalAllocation.
  destruct (Nat.eqb_spec (length agents) (length maps)) as [L|L]; simpl; [|discriminate].
  destruct maps as [|m0 rest].
  - destruct agents; [|discriminate]. simpl. intros H. injection H as <- <-. auto.
  - destruct (check_input_cons_shape m0 rest) as [E|[E|[E|E]]]; rewrite E; discriminate.
Qed.

Lemma FractionalAllocation_raises_only_on_empty_witness :
  FractionalAllocation [] [] = ([], inl IndexError) /\
  ([] : list AdditiveAgent) = [] /\ ([] : list fmap) = [] /\ ([] : list diag) = [] /\
  IndexError = IndexError.
Proof.
  split; [reflexivity|]. apply (FractionalAllocation_raises_only_on_empty [] [] [] IndexError).
  reflexivity.
Defined.

(** Construction ends in one of two states, the valid one holding the
    caller's lists or the all-[None] one, and it prints nothing exactly
    when it builds the valid one. *)
Theorem FractionalAllocation_silent_iff_valid
    (agents : list AdditiveAgent) (maps : list fmap) (d : list diag) (st : FractionalAllocationObj) :
  FractionalAllocation agents maps = (d, inr st) ->
  (st = sentinel \/ st = mkFA (Some agents) (Some maps)) /\
  (d = [] <-> st = mkFA (Some agents) (Some maps)).
Proof.
  unfold FractionalAllocation.
  destruct (Nat.eqb_spec (length agents) (length maps)) as [L|L]; simpl.
  - destruct maps as [|m0 rest]; [simpl; discriminate|].
    destruct (check_input_cons_shape m0 rest) as [E|[E|[E|E]]]; rewrite E; simpl;
      intros H; injection H as <- <-;
      (split; [tauto | split; intro H; discriminate H || reflexivity]).
  - intros H. injection H as <- <-.
    split; [tauto | split; intro H; discriminate H].
Qed.

Lemma FractionalAllocation_silent_iff_valid_witness :
  let agents := [mkAgent "agent1" (ex 1 2 3); mkAgent "agent2" (ex 3 2 1)] in
  let maps := [ex (1#2) (1#2) (1#2); ex (1#2) (1#2) (1#2)] in
  FractionalAllocation agents maps = ([], inr (mkFA (Some agents) (Some maps))) /\
  (mkFA (Some agents) (Some maps) = sentinel \/
   mkFA (Some agents) (Some maps) = mkFA (Some agents) (Some maps)) /\
  (([] : list diag) = [] <-> mkFA (Some agents) (Some maps) = mkFA (Some agents) (Some maps)).
Proof.
  cbv zeta. split; [reflexivity|].
  apply FractionalAllocation_silent_iff_valid. reflexivity.
Defined.

(** ** The integral container *)

Lemma py_index_Some (len : nat) (i : Z) (n : nat) : py_index len i = Some n -> (n < len)%nat.
Proof.
  unfold py_index.
  destruct ((0 <=? i)%Z && (i <? Z.of_nat len)%Z) eqn:E1.
  - apply andb_true_iff in E1 as [A B]. apply Z.leb_le in A. apply Z.ltb_lt in B.
    intros H. injection H as <-. lia.
  - destruct ((- Z.of_nat len <=? i)%Z && (i <? 0)%Z) eqn:E2; [|discriminate].
    apply andb_true_iff in E2 as [A B]. apply Z.leb_le in A. apply Z.ltb_lt in B.
    intros H. injection H as <-. lia.
Qed.

Lemma py_index_None (len : nat) (i : Z) :
  py_index len i = None <-> (i < - Z.of_nat len \/ Z.of_nat len <= i)%Z.
Proof.
  unfold py_index.
  destruct ((0 <=? i)%Z && (i <? Z.of_nat len)%Z) eqn:E1.
  - apply andb_true_iff in E1 as [A B]. apply Z.leb_le in A. apply Z.ltb_lt in B.
    split; [discriminate | lia].
  - destruct ((- Z.of_nat len <=? i)%Z && (i <? 0)%Z) eqn:E2.
    + apply andb_true_iff in E2 as [A B]. apply Z.leb_le in A. apply Z.ltb_lt in B.
      split; [discriminate | lia].
    + split; [intros _ |reflexivity].
      apply andb_false_iff in E1, E2.
      destruct E1 as [E1|E1]; [apply Z.leb_gt in E1 | apply Z.ltb_ge in E1];
      destruct E2 as [E2|E2]; try apply Z.leb_gt in E2; try apply Z.ltb_ge in E2; lia.
Qed.

Lemma list_set_length {A} (l : list A) (n : nat) (x : A) : length (list_set l n x) = length l.
Proof. revert n; induction l as [|h l IH]; intros [|n]; simpl; auto. Qed.

Lemma list_set_nth_same {A} (l : list A) (n : nat) (x d : A) :
  (n < length l)%nat -> nth n (list_set l n x) d = x.
Proof.
  revert n; induction l as [|h l IH]; intros [|n] Hn; simpl in *; try lia; auto.
  apply IH. lia.
Qed.

Lemma list_set_nth_other {A} (l : list A) (n m : nat) (x d : A) :
  m <> n -> nth m (list_set l n x) d = nth m l d.
Proof.
  revert n m; induction l as [|h l IH]; intros [|n] [|m] Hmn; simpl; try reflexivity;
    try contradiction.
  apply IH. lia.
Qed.

(** [Allocation(agents)] starts with one [None] bundle per agent: every
    index in range reads [None], every other raises [IndexError]. *)
Theorem Allocation_init_default {Agent Bundle} (agents : list Agent) (i : Z) :
  let A := @Allocation_init Agent Bundle agents None in
  length (get_bundles A) = length agents /\
  ((- Z.of_nat (length agents) <= i < Z.of_nat (length agents))%Z -> get_bundle A i = inr None) /\
  ((i < - Z.of_nat (length agents) \/ Z.of_nat (length agents) <= i)%Z ->
   get_bundle A i = inl IndexError).
Proof.
  cbv zeta. unfold get_bundles, get_bundle, Allocation_init. simpl.
  rewrite repeat_length. split; [reflexivity|]. split.
  - intros Hi. destruct (py_index (length agents) i) as [n|] eqn:E.
    + rewrite nth_repeat. reflexivity.
    + apply py_index_None in E. lia.
  - intros Hi. apply py_index_None in Hi. rewrite Hi. reflexivity.
Qed.

(** [get_bundle] and [set_bundle] accept exactly the Python indices
    [-n <= i < n] for [n] bundles and raise [IndexError] on all others. *)
Theorem Allocation_index_range {Agent Bundle} (A : Allocation Agent Bundle) (i : Z) (b : option Bundle) :
  (get_bundle A i = inl IndexError <->
   (i < - Z.of_nat (length (alloc_bundles A)) \/ Z.of_nat (length (alloc_bundles A)) <= i)%Z) /\
  (set_bundle A i b = inl IndexError <->
   (i < - Z.of_nat (length (alloc_bundles A)) \/ Z.of_nat (length (alloc_bundles A)) <= i)%Z).
Proof.
  unfold get_bundle, set_bundle. rewrite <- py_index_None.
  destruct (py_index (length (alloc_bundles A)) i); split; split; congruence.
Qed.

(** After [set_bundle(i, b)], index [i] reads [b]; an index naming another
    position reads what it read before; the agents and the number of
    bundles are unchanged. *)
Theorem Allocation_set_get {Agent Bundle} (A A' : Allocation Agent Bundle) (i : Z) (b : option Bundle) :
  set_bundle A i b = inr A' ->
  get_bundle A' i = inr b /\
  (forall j, py_index (length (alloc_bundles A)) j <> py_index (length (alloc_bundles A)) i ->
     get_bundle A' j = get_bundle A j) /\
  alloc_agents A' = alloc_agents A /\ length (alloc_bundles A') = length (alloc_bundles A).
Proof.
  unfold set_bundle. destruct (py_index (length (alloc_bundles A)) i) as [n|] eqn:E;
    [|discriminate].
  intros H. injection H as <-. unfold get_bundle. simpl. rewrite list_set_length, E.
  apply py_index_Some in E as Hn.
  split; [rewrite list_set_nth_same by exact Hn; reflexivity|].
  split; [|split; reflexivity].
  intros j Hj. destruct (py_index (length (alloc_bundles A)) j) as [m|]; [|reflexivity].
  rewrite list_set_nth_other; [reflexivity|]. intros ->. apply Hj. reflexivity.
Qed.

Lemma Allocation_set_get_witness :
  let A := @Allocation_init string string ["George"; "Alice"]%string None in
  set_bundle A (-1) (Some "z"%string)
  = inr (mkAllocation ["George"; "Alice"]%string [None; Some "z"%string]) /\
  get_bundle (mkAllocation ["George"; "Alice"]%string [None; Some "z"%string]) (-1) = inr (Some "z"%string) /\
  (forall j, py_index (length (alloc_bundles A)) j <> py_index (length (alloc_bundles A)) (-1) ->
     get_bundle (mkAllocation ["George"; "Alice"]%string [None; Some "z"%string]) j = get_bundle A j) /\
  alloc_agents (mkAllocation ["George"; "Alice"]%string [None; Some "z"%string]) = alloc_agents A /\
  length (alloc_bundles (mkAllocation ["George"; "Alice"]%string [None; Some "z"%string]))
  = length (alloc_bundles A).
Proof.
  cbv zeta. split; [reflexivity|].
  apply Allocation_set_get. reflexivity.
Defined.

(** ** What the validator accepts *)

Lemma final_scan_None_inv (s : list Q) :
  final_scan s = None ->
  forall k, (k < length s)%nat -> nth k s 0 <= 1 /\ ~ nth k s 0 == 0.
Proof.
  induction s as [|x s IH]; simpl; intros H k Hk; [lia|].
  destruct (Qle_bool x 1) eqn:E1; simpl in H; [|discriminate].
  destruct (Qeq_bool x 0) eqn:E2; [discriminate|].
  destruct k as [|k].
  - split; [apply Qle_bool_iff; exact E1|].
    intros E. apply Qeq_bool_iff in E. congruence.
  - apply IH; [exact H | lia].
Qed.

Lemma item_sum_nonneg (m : list fmap) (k : nat) :
  shares_in_range m -> 0 <= item_sum m k.
Proof.
  intros Hr. unfold item_sum.
  assert (G : forall rows acc, 0 <= acc -> (forall r, In r rows -> In r m) ->
            0 <= fold_left (fun acc r => acc + nth k (values r) 0) rows acc).
  { induction rows as [|r rows IH]; intros acc Ha Hin; simpl; [exact Ha|].
    apply IH; [|intros r' H'; apply Hin; right; exact H'].
    destruct (nth_in_or_default k (values r) 0) as [I|D].
    - apply (Qle_trans _ (acc + 0)); [rewrite Qplus_0_r; exact Ha|].
      apply Qplus_le_r. apply (Hr r); [apply Hin; left; reflexivity | exact I].
    - rewrite D, Qplus_0_r. exact Ha. }
  apply G; [apply Qle_refl | auto].
Qed.

Lemma accumulate_Some_in_range (m0 : fmap) (rest : list fmap) (s : list Q) :
  same_items (m0 :: rest) ->
  accumulate (m0 :: rest) (repeat 0 (length m0)) = Some s ->
  shares_in_range (m0 :: rest).
Proof.
  intros Hs A r Hr v Hv.
  destruct (out_of_range v) eqn:O; [|apply out_of_range_false; exact O].
  exfalso.
  assert (N : accumulate (m0 :: rest) (repeat 0 (length m0)) = None).
  { apply accumulate_None. exists r. split; [exact Hr|].
    rewrite repeat_length, firstn_all2
      by (rewrite (same_items_length m0 rest r Hs Hr); lia).
    apply existsb_exists. exists v. split; assumption. }
  congruence.
Qed.

Lemma check_input_accepts_iff_aux (m0 : fmap) (rest : list fmap) :
  same_items (m0 :: rest) ->
  (check_input (m0 :: rest) = ([], inr true) <->
   shares_in_range (m0 :: rest) /\
   forall k, (k < length m0)%nat -> 0 < item_sum (m0 :: rest) k <= 1).
Proof.
  intros Hs. split.
  - unfold check_input. cbv zeta.
    destruct (accumulate (m0 :: rest) (repeat 0 (length m0))) as [s|] eqn:A;
      [|discriminate].
    intros H.
    assert (Hr : shares_in_range (m0 :: rest)) by exact (accumulate_Some_in_range m0 rest s Hs A).
    split; [exact Hr|].
    destruct (check_input_running_sums m0 rest Hs Hr) as (s' & E & L & N).
    rewrite A in E. injection E as <-.
    destruct (final_scan s) eqn:F; [discriminate|].
    intros k Hk. destruct (final_scan_None_inv s F k) as [H1 H0]; [lia|].
    rewrite N in H1, H0 by exact Hk. split; [|exact H1].
    destruct (Qle_lt_or_eq _ _ (item_sum_nonneg (m0 :: rest) k Hr)) as [P|P];
      [exact P | destruct H0; symmetry; exact P].
  - intros [Hr Hk].
    destruct (check_input_running_sums m0 rest Hs Hr) as (s & E & L & N).
    unfold check_input. cbv zeta. rewrite E, final_scan_None; [reflexivity|].
    intros k Hk'. rewrite N by lia. apply Hk. lia.
Qed.



(** With a single agent, [check_input] accepts exactly the maps whose every
    share lies in [(0,1]]: that agent must get part of every item. *)
Theorem check_input_single_agent (m : fmap) :
  check_input [m] = ([], inr true) <-> forall v, In v (values m) -> 0 < v <= 1.
Proof.
  assert (Hs : same_items [m]) by (intros r [<-|[]]; reflexivity).
  rewrite (check_input_accepts_iff_aux m [] Hs). unfold item_sum. simpl.
  assert (Lv : length (values m) = length m) by (unfold values; apply length_map).
  split.
  - intros [Hr Hk] v Hv. apply In_nth with (d := 0) in Hv as (k & Hk' & <-).
    destruct (Hk k) as [H0 H1]; [lia|]. rewrite Qplus_0_l in H0, H1. split; assumption.
  - intros H. split.
    + intros r [<-|[]] v Hv. destruct (H v Hv) as [H0 H1].
      split; [apply Qlt_le_weak; exact H0 | exact H1].
    + intros k Hk. rewrite Qplus_0_l. apply H. apply nth_In. lia.
Qed.

Lemma accumulate_values (rows rows' : list fmap) (ss : list Q) :
  map values rows = map values rows' -> accumulate rows ss = accumulate rows' ss.
Proof.
  revert rows' ss; induction rows as [|r rows IH]; intros [|r' rows'] ss H;
    simpl in H; try discriminate; [reflexivity|].
  injection H as Hv Hrest. rewrite !accumulate_cons, Hv.
  destruct (add_row_zip (values r') ss); [apply IH; exact Hrest | reflexivity].
Qed.

(** [check_input] reads only the values of the dicts: two lists of maps
    with the same values in the same order get the same verdict and
    messages, whatever their keys. *)
Theorem check_input_keys_ignored (m m' : list fmap) :
  map values m = map values m' -> check_input m = check_input m'.
Proof.
  intros H. destruct m as [|m0 rest]; destruct m' as [|m0' rest']; simpl in H;
    try discriminate; [reflexivity|].
  injection H as H0 Hrest.
  assert (L : length m0 = length m0').
  { apply (f_equal (@length _)) in H0. unfold values in H0. rewrite !length_map in H0. exact H0. }
  unfold check_input. cbv zeta. rewrite L.
  rewrite (accumulate_values (m0 :: rest) (m0' :: rest')); [reflexivity|].
  simpl. rewrite H0, Hrest. reflexivity.
Qed.

Lemma check_input_keys_ignored_witness :
  map values [[("x"%string, 1#2)]; [("x"%string, 1#2)]] =
  map values [[("a"%string, 1#2)]; [("b"%string, 1#2)]] /\
  check_input [[("x"%string, 1#2)]; [("x"%string, 1#2)]] =
  check_input [[("a"%string, 1#2)]; [("b"%string, 1#2)]].
Proof.
  split; [reflexivity|]. apply check_input_keys_ignored. reflexivity.
Defined.








(** ** Items and values of one agent *)

Lemma positive_share_iff (v : Q) : negb (Qle_bool v 0) = true <-> 0 < v.
Proof.
  rewrite negb_true_iff. split.
  - intros H. apply Qnot_le_lt. intros L. apply Qle_bool_iff in L. congruence.
  - intros H. destruct (Qle_bool v 0) eqn:E; [|reflexivity].
    apply Qle_bool_iff in E. destruct (Qlt_not_le _ _ H E).
Qed.

Lemma get_items_in (d : fmap) (k : Item) :
  In k (get_items_of_agent_in_alloc d) <-> exists v, In (k, v) d /\ 0 < v.
Proof.
  induction d as [|[key val] d IH]; simpl.
  - split; [contradiction | intros (v & [] & _)].
  - destruct (negb (Qle_bool val 0)) eqn:P; simpl; rewrite IH; split.
    + intros [<-|(v & Hv & Pv)].
      * exists val. split; [left; reflexivity | apply positive_share_iff; exact P].
      * exists v. split; [right; exact Hv | exact Pv].
    + intros (v & [E|Hv] & Pv); [injection E as -> ->; left; reflexivity|].
      right. exists v. split; assumption.
    + intros (v & Hv & Pv). exists v. split; [right; exact Hv | exact Pv].
    + intros (v & [E|Hv] & Pv); [|exists v; split; assumption].
      injection E as -> ->. apply positive_share_iff in Pv. congruence.
Qed.

(** [get_items_of_agent_in_alloc] lists exactly the keys holding a share
    [> 0]; when the dict's keys are distinct, so are the listed items. *)
Theorem get_items_positive (d : fmap) :
  (forall k, In k (get_items_of_agent_in_alloc d) <-> exists v, In (k, v) d /\ 0 < v) /\
  (NoDup (keys d) -> NoDup (get_items_of_agent_in_alloc d)).
Proof.
  split; [intros k; apply get_items_in|].
  induction d as [|[key val] d IH]; intros Hnd; simpl; [constructor|].
  inversion Hnd as [|? ? Hnk Hnd']; subst.
  destruct (negb (Qle_bool val 0)); [|exact (IH Hnd')].
  constructor; [|exact (IH Hnd')].
  intros Hk. apply get_items_in in Hk as (v & Hv & _). apply Hnk. apply (in_map fst _ _ Hv).
Qed.

Lemma sumQ_le {A} (F G : A -> Q) (l : list A) :
  (forall x, In x l -> F x <= G x) -> sumQ (map F l) <= sumQ (map G l).
Proof.
  induction l as [|x l IH]; intros H; simpl; [apply Qle_refl|].
  apply Qplus_le_compat; [apply H; left; reflexivity|].
  apply IH. intros y Hy. apply H. right. exact Hy.
Qed.

Lemma sumQ_nonneg {A} (F : A -> Q) (l : list A) :
  (forall x, In x l -> 0 <= F x) -> 0 <= sumQ (map F l).
Proof.
  intros H. rewrite <- (sumQ_zero l). apply sumQ_le. exact H.
Qed.

Lemma sumQ_nth_seq (l : list Q) :
  sumQ (map (fun k => nth k l 0) (seq 0 (length l))) = sumQ l.
Proof.
  induction l as [|x l IH]; [reflexivity|]. simpl.
  rewrite <- seq_shift, map_map. simpl. rewrite IH. reflexivity.
Qed.

Lemma Qmult_le_mono_l (x y z : Q) : x <= y -> 0 <= z -> z * x <= z * y.
Proof. intros H Z. rewrite !(Qmult_comm z). apply Qmult_le_compat_r; assumption. Qed.

Lemma nth_nonneg (l : list Q) (k : nat) :
  (forall w, In w l -> 0 <= w) -> 0 <= nth k l 0.
Proof.
  intros H. destruct (nth_in_or_default k l 0) as [I|D]; [apply H; exact I | rewrite D; apply Qle_refl].
Qed.

(** With item values [>= 0], a pointwise larger share never lowers an
    agent's value (maps with the same number of entries). *)
Theorem get_value_monotone (dv f g : fmap) :
  (forall w, In w (values dv) -> 0 <= w) ->
  length f = length g ->
  (forall k, nth k (values f) 0 <= nth k (values g) 0) ->
  get_value_of_agent_in_alloc dv f <= get_value_of_agent_in_alloc dv g.
Proof.
  intros Hw L Hk. rewrite !get_value_positional. unfold positional_sum.
  assert (Lv : length (values f) = length (values g)) by (unfold values; rewrite !length_map; exact L).
  rewrite Lv, !fold_left_plus_sumQ. apply Qplus_le_r. apply sumQ_le.
  intros k _. apply Qmult_le_mono_l; [apply Hk | apply nth_nonneg; exact Hw].
Qed.

Lemma get_value_monotone_witness :
  (forall w, In w (values (ex 1 2 3)) -> 0 <= w) /\
  length (ex (4#10) 0 (1#2)) = length (ex (6#10) 1 (1#2)) /\
  (forall k, nth k (values (ex (4#10) 0 (1#2))) 0 <= nth k (values (ex (6#10) 1 (1#2))) 0) /\
  get_value_of_agent_in_alloc (ex 1 2 3) (ex (4#10) 0 (1#2)) <=
  get_value_of_agent_in_alloc (ex 1 2 3) (ex (6#10) 1 (1#2)).
Proof.
  assert (Hw : forall w, In w (values (ex 1 2 3)) -> 0 <= w).
  { intros w Hw. simpl in Hw. repeat destruct Hw as [<-|Hw]; try contradiction;
      apply Qle_bool_iff; reflexivity. }
  assert (Hk : forall k, nth k (values (ex (4#10) 0 (1#2))) 0 <= nth k (values (ex (6#10) 1 (1#2))) 0).
  { intros [|[|[|k]]]; apply Qle_bool_iff; [reflexivity | reflexivity | reflexivity |].
    destruct k; reflexivity. }
  split; [exact Hw|]. split; [reflexivity|]. split; [exact Hk|].
  apply get_value_monotone; [exact Hw | reflexivity | exact Hk].
Defined.

(** With item values [>= 0] and shares in [[0,1]], an agent's fractional
    value lies between 0 and the total of its item values. *)
Theorem get_value_bounds (dv f : fmap) :
  (forall w, In w (values dv) -> 0 <= w) ->
  (forall s, In s (values f) -> 0 <= s <= 1) ->
  0 <= get_value_of_agent_in_alloc dv f <= sumQ (values dv).
Proof.
  intros Hw Hs. rewrite get_value_positional. unfold positional_sum.
  rewrite fold_left_plus_sumQ, Qplus_0_l.
  set (wv := values dv). set (sv := values f).
  assert (Hs' : forall k, 0 <= nth k sv 0 <= 1).
  { intros k. destruct (nth_in_or_default k sv 0) as [I|D]; [apply Hs; exact I|].
    rewrite D. split; apply Qle_bool_iff; reflexivity. }
  split.
  - apply sumQ_nonneg. intros k _. apply Qmult_le_0_compat; [apply nth_nonneg; exact Hw | apply Hs'].
  - apply (Qle_trans _ (sumQ (map (fun k => nth k wv 0) (seq 0 (Nat.min (length wv) (length sv)))))).
    + apply sumQ_le. intros k _.
      rewrite <- (Qmult_1_r (nth k wv 0)) at 2.
      apply Qmult_le_mono_l; [apply Hs' | apply nth_nonneg; exact Hw].
    + rewrite <- (sumQ_nth_seq wv).
      set (M := Nat.min (length wv) (length sv)).
      replace (length wv) with (M + (length wv - M))%nat by lia.
      rewrite seq_app, map_app, sumQ_app.
      rewrite <- (Qplus_0_r (sumQ (map (fun k => nth k wv 0) (seq 0 M)))) at 1.
      apply Qplus_le_r. apply sumQ_nonneg. intros k _. apply nth_nonneg. exact Hw.
Qed.

Lemma get_value_bounds_witness :
  (forall w, In w (values (ex 1 2 3)) -> 0 <= w) /\
  (forall s, In s (values (ex (4#10) 0 (1#2))) -> 0 <= s <= 1) /\
  0 <= get_value_of_agent_in_alloc (ex 1 2 3) (ex (4#10) 0 (1#2)) <= sumQ (values (ex 1 2 3)).
Proof.
  assert (Hw : forall w, In w (values (ex 1 2 3)) -> 0 <= w).
  { intros w Hw. simpl in Hw. repeat destruct Hw as [<-|Hw]; try contradiction;
      apply Qle_bool_iff; reflexivity. }
  assert (Hs : forall s, In s (values (ex (4#10) 0 (1#2))) -> 0 <= s <= 1).
  { intros s Hs. simpl in Hs. repeat destruct Hs as [<-|Hs]; try contradiction;
      split; apply Qle_bool_iff; reflexivity. }
  split; [exact Hw|]. split; [exact Hs|].
  apply get_value_bounds; assumption.
Defined.

(** ** Rendering *)

Lemma str_leb_trans (x y z : Item) :
  String.leb x y = true -> String.leb y z = true -> String.leb x z = true.
Proof.
  intros H1 H2. unfold String.leb in H1, H2.
  destruct (String.compare x y) eqn:Exy; try discriminate;
  destruct (String.compare y z) eqn:Eyz; try discriminate.
  - apply String.compare_eq_iff in Exy. apply String.compare_eq_iff in Eyz.
    rewrite Exy, Eyz. destruct (String.leb_total z z); assumption.
  - apply String.compare_eq_iff in Exy. rewrite Exy. unfold String.leb. rewrite Eyz. reflexivity.
  - apply String.compare_eq_iff in Eyz. rewrite <- Eyz. unfold String.leb. rewrite Exy. reflexivity.
  - unfold String.leb. rewrite (str_lt_trans x y z Exy Eyz). reflexivity.
Qed.

Lemma strongly_sorted_leb_unique (l1 l2 : list Item) :
  StronglySorted (fun a b => String.leb a b = true) l1 ->
  StronglySorted (fun a b => String.leb a b = true) l2 ->
  Permutation l1 l2 -> l1 = l2.
Proof.
  revert l2; induction l1 as [|x l1 IH]; intros l2 H1 H2 Hp.
  - symmetry. apply Permutation_nil. exact Hp.
  - destruct l2 as [|y l2]; [apply Permutation_sym, Permutation_nil in Hp; discriminate|].
    apply StronglySorted_inv in H1 as [H1 F1]. apply StronglySorted_inv in H2 as [H2 F2].
    destruct (string_dec x y) as [<-|Hxy].
    + f_equal. apply IH; [exact H1 | exact H2 |]. apply Permutation_cons_inv in Hp. exact Hp.
    + exfalso.
      assert (Hx : In x l2).
      { assert (In x (y :: l2)) as [E|E] by (apply (Permutation_in x Hp); left; reflexivity);
          [congruence | exact E]. }
      assert (Hy : In y l1).
      { assert (In y (x :: l1)) as [E|E]
          by (apply (Permutation_in y (Permutation_sym Hp)); left; reflexivity);
          [congruence | exact E]. }
      rewrite Forall_forall in F1, F2.
      pose proof (F1 y Hy) as Lxy. pose proof (F2 x Hx) as Lyx.
      unfold String.leb in *. rewrite String.compare_antisym in Lxy.
      destruct (String.compare y x) eqn:E; simpl in Lxy; try discriminate.
      apply String.compare_eq_iff in E. congruence.
Qed.

(** [stringify_bundle] on any iterable of items, duplicates included (the
    strings ["xy"] of [Allocation], the lists of [__repr__]): the items in
    ascending order, comma-separated, between braces, and the same string
    for any reordering of the input. *)
Theorem stringify_bundle_any_order (b1 b2 : list Item) :
  Permutation b1 b2 ->
  stringify_bundle b1 = stringify_bundle b2 /\
  exists s, stringify_bundle b1 = ("{" ++ String.concat "," s ++ "}")%string /\
            Sorted (fun a b => String.leb a b = true) s /\ Permutation b1 s.
Proof.
  intros Hp. split.
  - unfold stringify_bundle. f_equal. f_equal. f_equal.
    apply strongly_sorted_leb_unique;
      [apply Sorted_StronglySorted; [exact str_leb_trans | apply py_sorted_sorted]
      |apply Sorted_StronglySorted; [exact str_leb_trans | apply py_sorted_sorted] |].
    rewrite <- !py_sorted_perm. exact Hp.
  - exists (py_sorted b1). split; [reflexivity|].
    split; [apply py_sorted_sorted | apply py_sorted_perm].
Qed.

Lemma stringify_bundle_any_order_witness :
  Permutation ["y"; "x"; "y"]%string ["x"; "y"; "y"]%string /\
  stringify_bundle ["y"; "x"; "y"]%string = stringify_bundle ["x"; "y"; "y"]%string /\
  exists s, stringify_bundle ["y"; "x"; "y"]%string = ("{" ++ String.concat "," s ++ "}")%string /\
            Sorted (fun a b => String.leb a b = true) s /\ Permutation ["y"; "x"; "y"]%string s.
Proof.
  assert (Hp : Permutation ["y"; "x"; "y"]%string ["x"; "y"; "y"]%string) by apply perm_swap.
  split; [exact Hp|]. apply stringify_bundle_any_order. exact Hp.
Defined.

Lemma string_append_assoc (a b c : string) : (a ++ (b ++ c))%string = ((a ++ b) ++ c)%string.
Proof. induction a as [|ch a IH]; simpl; [reflexivity | now rewrite IH]. Qed.

Lemma repr_loop_app (show_number : Q -> string) (ags : list AdditiveAgent)
    (pre ms : list fmap) (acc : string) :
  length ags = length ms ->
  repr_loop show_number ags (length pre) (Some (pre ++ ms)) acc =
  inr (acc ++ fold_right String.append "" (map (repr_line show_number) (combine ags ms)))%string.
Proof.
  revert pre ms acc; induction ags as [|a ags IH]; intros pre [|f ms] acc Hl;
    simpl in Hl; try discriminate.
  - simpl. f_equal. induction acc as [|ch acc IHa]; simpl; [reflexivity | f_equal; exact IHa].
  - simpl. rewrite nth_error_app2, Nat.sub_diag by lia. simpl.
    replace (S (length pre)) with (length (pre ++ [f])) by (rewrite length_app; simpl; lia).
    replace (pre ++ f :: ms) with ((pre ++ [f]) ++ ms) by (rewrite <- app_assoc; reflexivity).
    rewrite IH by lia. f_equal. unfold repr_line. simpl.
    rewrite <- !string_append_assoc. reflexivity.
Qed.

(** On an instance holding as many maps as agents, [__repr__] never raises
    and renders one line per agent, in agent order:
    ["<name>'s bundle: {<items with share > 0, sorted>},  value: <value>\n"]. *)
Theorem FractionalAllocation_repr_valid (show_number : Q -> string)
    (agents : list AdditiveAgent) (maps : list fmap) :
  length agents = length maps ->
  FractionalAllocation_repr show_number (mkFA (Some agents) (Some maps)) =
  inr (fold_right String.append ""%string (map (repr_line show_number) (combine agents maps))).
Proof.
  intros Hl. unfold FractionalAllocation_repr. simpl.
  apply (repr_loop_app show_number agents [] maps ""%string Hl).
Qed.

Lemma FractionalAllocation_repr_valid_witness :
  let agents := [mkAgent "agent1" (ex 1 2 3); mkAgent "agent2" (ex 3 2 1)] in
  let maps := [ex (4#10) 0 (1#2); ex (6#10) 1 (1#2)] in
  length agents = length maps /\
  FractionalAllocation_repr (fun _ => "v"%string) (mkFA (Some agents) (Some maps)) =
  inr (fold_right String.append ""%string (map (repr_line (fun _ => "v"%string)) (combine agents maps))).
Proof.
  cbv zeta. split; [reflexivity|]. apply FractionalAllocation_repr_valid. reflexivity.
Defined.
